(** * FieldMapperDelegate: permission-level builder of [src/field.mapper.delegate.js]

    A shallow embedding of the [FieldMapperDelegate] class and of the module
    code that installs the default accessors on its prototype, followed by
    the properties of the permission builder that the specification states.

    Modelling conventions.
    - A JavaScript object used as a table (the [delegate] field, and the
      generated methods that the constructor installs on the instance) is a
      finite map of its own properties, keyed by strings.  Properties that a
      plain object inherits from [Object.prototype] ("constructor",
      "__proto__", ...) are not part of the model.
    - A field that may hold [undefined], [null] or a value is a [nullable].
      A [nullable] used as a property key is coerced to a string as
      JavaScript does ([undefined] gives the key "undefined").
    - [new] allocates: every mapper carries the reference it was allocated
      at, and two slots hold the same instance exactly when the references
      agree.  Mappers are never mutated by this class.
    - Strings are sequences of ASCII characters; [toUpperCase] and
      [toLowerCase] act on the letters a-z / A-Z.
    - A method named in a statement is the function the class defines under
      that name.  Property lookup by name matters for the generated
      accessors only, and is modelled there ([send], [invoke]). *)

From Stdlib Require Import ZArith Ascii String.
From stdpp Require Import gmap strings list.

Local Open Scope string_scope.
Local Open Scope Z_scope.

(** ** JavaScript values *)

Inductive nullable (A : Type) : Type :=
| Undefined
| Null
| Val (a : A).
Arguments Undefined {A}.
Arguments Null {A}.
Arguments Val {A} a.

(** [if (x)] on a flag, and on an optional string (the empty string is falsy). *)
Definition truthy_flag (x : nullable bool) : bool :=
  match x with Val b => b | _ => false end.

Definition truthy_string (x : nullable string) : bool :=
  match x with Val s => negb (String.eqb s "") | _ => false end.

(** [x !== null && x !== undefined] *)
Definition is_set {A} (x : nullable A) : bool :=
  match x with Val _ => true | _ => false end.

(** [obj[k]]: the key is converted to a string. *)
Definition property_key (k : nullable string) : string :=
  match k with Undefined => "undefined" | Null => "null" | Val s => s end.

(** [Array.prototype.indexOf]: first index holding the element, [-1] if none. *)
Fixpoint indexOf_from (l : list string) (x : string) (i : Z) : Z :=
  match l with
  | [] => -1
  | y :: l' => if decide (y = x) then i else indexOf_from l' x (i + 1)
  end.

Definition indexOf (l : list string) (x : string) : Z := indexOf_from l x 0.

(** [arr[0]] *)
Definition first_entry (l : list string) : nullable string :=
  match l with [] => Undefined | x :: _ => Val x end.

(** ** Strings: [capitalize] *)

Definition toUpperCase_char (c : ascii) : ascii :=
  let n := nat_of_ascii c in
  if ((97 <=? n)%nat && (n <=? 122)%nat)%bool then ascii_of_nat (n - 32)%nat else c.

Definition toLowerCase_char (c : ascii) : ascii :=
  let n := nat_of_ascii c in
  if ((65 <=? n)%nat && (n <=? 90)%nat)%bool then ascii_of_nat (n + 32)%nat else c.

Fixpoint toUpperCase (s : string) : string :=
  match s with
  | EmptyString => EmptyString
  | String c s' => String (toUpperCase_char c) (toUpperCase s')
  end.

Fixpoint toLowerCase (s : string) : string :=
  match s with
  | EmptyString => EmptyString
  | String c s' => String (toLowerCase_char c) (toLowerCase s')
  end.

(** [str.charAt(0)] and [str.slice(1)] *)
Definition charAt0 (s : string) : string :=
  match s with EmptyString => EmptyString | String c _ => String c EmptyString end.

Definition slice1 (s : string) : string :=
  match s with EmptyString => EmptyString | String _ s' => s' end.

(** [str.charAt(0).toUpperCase() + str.toLowerCase().slice(1)] *)
Definition capitalize (str : string) : string :=
  toUpperCase (charAt0 str) ++ slice1 (toLowerCase str).


(** ** Selection methods and the names generated from them *)

Inductive selector : Type := AtOrAbove | When | RestrictTo.

(** The constants [atOrAbove], [when], [restrictTo] at the top of the module. *)
Definition selector_name (sel : selector) : string :=
  match sel with
  | AtOrAbove => "atOrAbove"
  | When => "when"
  | RestrictTo => "restrictTo"
  end.

(** [`${atOrAbove}${capitalize(permission)}`] and its two siblings *)
Definition accessor_name (sel : selector) (permission : string) : string :=
  selector_name sel ++ capitalize permission.

(** A generated closure [() => this.<sel>(permission)]. *)
Definition accessor : Type := (selector * string)%type.

(** One round of the [forEach] body: the three assignments, in source order. *)
Definition install_one (tbl : gmap string accessor) (permission : string)
  : gmap string accessor :=
  <[accessor_name RestrictTo permission := (RestrictTo, permission)]>
    (<[accessor_name When permission := (When, permission)]>
      (<[accessor_name AtOrAbove permission := (AtOrAbove, permission)]> tbl)).

Definition install_accessors (ranking : list string) (tbl : gmap string accessor)
  : gmap string accessor :=
  foldl install_one tbl ranking.

(** ** Errors and results *)

Inductive exn : Type :=
| Error (message : string)
| RangeError   (* unbounded recursion: "Maximum call stack size exceeded" *)
| TypeError.   (* calling what is not a function *)

Inductive outcome (A : Type) : Type :=
| Ok (a : A)
| Throw (e : exn).
Arguments Ok {A} a.
Arguments Throw {A} e.

Definition PermissionLvlNotFound : exn := Error "Permission Lvl Not Found".
Definition InvalidPermissionLvl : exn := Error "Invalid permission lvl provided".
Definition OverwrittenDefaultAPI : exn :=
  Error "Cannot use overwritten default permission ranking API".

(** A promise, as far as [transform] is concerned: settled one way or the other. *)
Inductive Promise (V F : Type) : Type :=
| Resolved (v : nullable V)
| Rejected (f : F).
Arguments Resolved {V F} v.
Arguments Rejected {V F} f.

(** ** The collaborators *)

(** The three mapper classes imported from [./fieldMapper], as the data
    their constructors receive. *)
Inductive FieldMapper (Builder Transformer : Type) : Type :=
| PassthroughFieldMapper
| CustomFieldMapper (builder : Builder)
| SubTransformFieldMapper (transformerKey : Transformer) (permission : string).
Arguments PassthroughFieldMapper {Builder Transformer}.
Arguments CustomFieldMapper {Builder Transformer} builder.
Arguments SubTransformFieldMapper {Builder Transformer} transformerKey permission.

(** What the module imports and what it treats as opaque: the caller's
    builder functions, the transformer providers handed to [subTransform],
    source instances, transformed values and rejection reasons; the default
    ranking exported by [./permission]; and the one operation every mapper
    of [./fieldMapper] offers, [map(instance, sourceKey, isList)]. *)
Class Collaborators : Type := {
  Builder : Type;
  Transformer : Type;
  SourceInstance : Type;
  Value : Type;
  Failure : Type;
  PermissionRanking : list string;
  FieldMapper_map :
    FieldMapper Builder Transformer -> SourceInstance ->
    nullable string -> nullable bool -> Promise Value Failure
}.

(** ** The delegate *)

Section Delegate.

Context `{Collaborators}.

(** A mapper object on the heap. *)
Record mapper : Type := Mapper { ref : nat; obj : FieldMapper Builder Transformer }.

(** The fields of [this]. *)
Record FieldMapperDelegate : Type := Delegate {
  permissionRanking : list string;
  _defaultPermissionRanking : nullable bool;
  methods : gmap string accessor;
  sourceKey : nullable string;
  delegate : gmap string (nullable mapper);
  alwaysFlag : nullable bool;
  curPermissionLvl : nullable string;
  restrictAtOrAbove : nullable Z;
  restrict : nullable Z;
  isList : nullable bool
}.

(** The heap allocator together with the one delegate under study. *)
Record Store : Type := MkStore { next_ref : nat; self : FieldMapperDelegate }.

(** *** Field updates *)

Definition set_delegate (t : gmap string (nullable mapper)) (d : FieldMapperDelegate) :=
  Delegate (permissionRanking d) (_defaultPermissionRanking d) (methods d)
    (sourceKey d) t (alwaysFlag d) (curPermissionLvl d)
    (restrictAtOrAbove d) (restrict d) (isList d).

Definition set_alwaysFlag (f : nullable bool) (d : FieldMapperDelegate) :=
  Delegate (permissionRanking d) (_defaultPermissionRanking d) (methods d)
    (sourceKey d) (delegate d) f (curPermissionLvl d)
    (restrictAtOrAbove d) (restrict d) (isList d).

Definition set_curPermissionLvl (l : nullable string) (d : FieldMapperDelegate) :=
  Delegate (permissionRanking d) (_defaultPermissionRanking d) (methods d)
    (sourceKey d) (delegate d) (alwaysFlag d) l
    (restrictAtOrAbove d) (restrict d) (isList d).

Definition set_restrictAtOrAbove (i : nullable Z) (d : FieldMapperDelegate) :=
  Delegate (permissionRanking d) (_defaultPermissionRanking d) (methods d)
    (sourceKey d) (delegate d) (alwaysFlag d) (curPermissionLvl d)
    i (restrict d) (isList d).

Definition set_restrict (i : nullable Z) (d : FieldMapperDelegate) :=
  Delegate (permissionRanking d) (_defaultPermissionRanking d) (methods d)
    (sourceKey d) (delegate d) (alwaysFlag d) (curPermissionLvl d)
    (restrictAtOrAbove d) i (isList d).

Definition set_isList (b : nullable bool) (d : FieldMapperDelegate) :=
  Delegate (permissionRanking d) (_defaultPermissionRanking d) (methods d)
    (sourceKey d) (delegate d) (alwaysFlag d) (curPermissionLvl d)
    (restrictAtOrAbove d) (restrict d) b.

(** [this.delegate[k]] read, and [this.delegate[k] = v] *)
Definition slot (d : FieldMapperDelegate) (k : string) : nullable mapper :=
  default Undefined (delegate d !! k).

Definition write_slot (k : string) (v : nullable mapper) (d : FieldMapperDelegate) :=
  set_delegate (<[k := v]> (delegate d)) d.

(** Methods run on the store and either return (always [this]) or throw. *)
Definition method : Type := Store -> outcome Store.

Definition andThen (f g : method) : method :=
  fun s => match f s with Ok s' => g s' | Throw e => Throw e end.

Definition on_self (f : FieldMapperDelegate -> FieldMapperDelegate) (s : Store) : Store :=
  MkStore (next_ref s) (f (self s)).

(** [new C(...)] *)
Definition alloc (o : FieldMapper Builder Transformer) (s : Store) : mapper * Store :=
  (Mapper (next_ref s) o, MkStore (S (next_ref s)) (self s)).

(** *** Constructor and generated accessors *)

(** [buildPermissionMethods] (reached through [setPermissionRanking]) *)
Definition buildPermissionMethods (ranking : list string) : gmap string accessor :=
  install_accessors ranking ∅.

(** [constructor (sourceKey, permissionRanking)]; an omitted ranking is [None]. *)
Definition new_delegate (key : nullable string) (custom : option (list string))
  : FieldMapperDelegate :=
  let ranking := match custom with Some r => r | None => PermissionRanking end in
  {| permissionRanking := ranking;
     _defaultPermissionRanking :=
       match custom with Some _ => Undefined | None => Val true end;
     methods := buildPermissionMethods ranking;
     sourceKey := key;
     delegate := ∅;
     alwaysFlag := Undefined;
     curPermissionLvl := Undefined;
     restrictAtOrAbove := Undefined;
     restrict := Undefined;
     isList := Undefined |}.

(** The accessors that the module installs on [FieldMapperDelegate.prototype]. *)
Definition prototype_accessors : gmap string accessor :=
  install_accessors PermissionRanking ∅.

(** *** Selection *)

Definition always : method := fun s =>
  Ok (on_self (fun d =>
        set_curPermissionLvl (first_entry (permissionRanking d))
          (set_alwaysFlag (Val true) d)) s).

Definition when (permission : string) : method := fun s =>
  Ok (on_self (set_curPermissionLvl (Val permission)) s).

Definition atOrAbove (permission : string) : method := fun s =>
  let index := indexOf (permissionRanking (self s)) permission in
  if decide (index = -1) then Throw PermissionLvlNotFound
  else Ok (on_self (fun d =>
             set_curPermissionLvl (Val permission)
               (set_restrictAtOrAbove (Val index) d)) s).

Definition restrictTo (permission : string) : method := fun s =>
  let index := indexOf (permissionRanking (self s)) permission in
  if decide (index = -1) then Throw PermissionLvlNotFound
  else Ok (on_self (fun d =>
             set_curPermissionLvl (Val permission)
               (set_restrict (Val index) d)) s).

Definition asList : method := fun s => Ok (on_self (set_isList (Val true)) s).

(** *** Narrowing *)

(** [_always]: the slot of the current level is re-read at every round. *)
Definition _always (d : FieldMapperDelegate) : FieldMapperDelegate :=
  if truthy_flag (alwaysFlag d) then
    foldl (fun d' permission =>
             write_slot permission (slot d' (property_key (curPermissionLvl d'))) d')
          d (permissionRanking d)
  else d.

(** The [for] loop of [_restrictAtOrAbove], from index [i] on. *)
Fixpoint restrictAtOrAbove_loop (cutoff : Z) (fieldMapper : nullable mapper)
    (i : nat) (ranking : list string) (d : FieldMapperDelegate) : FieldMapperDelegate :=
  match ranking with
  | [] => d
  | permission :: rest =>
      restrictAtOrAbove_loop cutoff fieldMapper (S i) rest
        (if decide (Z.of_nat i < cutoff)
         then write_slot permission Null d
         else write_slot permission fieldMapper d)
  end.

Definition _restrictAtOrAbove (fieldMapper : nullable mapper) (d : FieldMapperDelegate)
  : FieldMapperDelegate :=
  match restrictAtOrAbove d with
  | Val cutoff => restrictAtOrAbove_loop cutoff fieldMapper 0 (permissionRanking d) d
  | _ => d
  end.

(** The [for] loop of [_restrictTo], from index [i] on. *)
Fixpoint restrictTo_loop (sole : Z) (fieldMapper : nullable mapper)
    (i : nat) (ranking : list string) (d : FieldMapperDelegate) : FieldMapperDelegate :=
  match ranking with
  | [] => d
  | permission :: rest =>
      restrictTo_loop sole fieldMapper (S i) rest
        (if decide (Z.of_nat i ≠ sole)
         then write_slot permission Null d
         else write_slot permission fieldMapper d)
  end.

Definition _restrictTo (fieldMapper : nullable mapper) (d : FieldMapperDelegate)
  : FieldMapperDelegate :=
  match restrict d with
  | Val sole => restrictTo_loop sole fieldMapper 0 (permissionRanking d) d
  | _ => d
  end.

Definition _checkAndReset (fieldMapper : nullable mapper) (d : FieldMapperDelegate)
  : FieldMapperDelegate :=
  set_alwaysFlag Null
    (set_curPermissionLvl Null
      (_restrictTo fieldMapper (_restrictAtOrAbove fieldMapper (_always d)))).

(** *** Assignment *)

(** The shared shape of [passthrough] and [buildWith]. *)
Definition assign (o : FieldMapper Builder Transformer) : method := fun s =>
  let '(m, s1) := alloc o s in
  let d1 := write_slot (property_key (curPermissionLvl (self s1))) (Val m) (self s1) in
  Ok (MkStore (next_ref s1)
        (_checkAndReset (slot d1 (property_key (curPermissionLvl d1))) d1)).

Definition passthrough : method := assign PassthroughFieldMapper.

Definition buildWith (builder : Builder) : method := assign (CustomFieldMapper builder).

(** [subTransform], the [else] branch: one new mapper per level. *)
Definition cascade_step (transformerKey : Transformer) (s : Store) (curPermissionLvl : string)
  : Store :=
  let '(m, s1) := alloc (SubTransformFieldMapper transformerKey curPermissionLvl) s in
  on_self (write_slot curPermissionLvl (Val m)) s1.

Definition subTransform_cascade (transformerKey : Transformer) (s : Store) : Store :=
  foldl (cascade_step transformerKey) s (permissionRanking (self s)).

(** [subTransform], the [then] branch after the check: one mapper for all levels. *)
Definition subTransform_fixed (transformerKey : Transformer) (permissionLvl : string)
    (s : Store) : Store :=
  let '(m, s1) := alloc (SubTransformFieldMapper transformerKey permissionLvl) s in
  on_self (fun d => foldl (fun d' lvl => write_slot lvl (Val m) d') d (permissionRanking d)) s1.

(** [subTransform] up to and excluding [this.alwaysFlag = null]; a truthy
    [permissionLvl] is a non-empty string. *)
Definition subTransform_write (transformerKey : Transformer)
    (permissionLvl : nullable string) : method := fun s =>
  if truthy_string permissionLvl then
    let lvl := property_key permissionLvl in
    if decide (indexOf (permissionRanking (self s)) lvl = -1)
    then Throw InvalidPermissionLvl
    else Ok (subTransform_fixed transformerKey lvl s)
  else Ok (subTransform_cascade transformerKey s).

Definition subTransform (transformerKey : Transformer)
    (permissionLvl : nullable string) : method :=
  andThen (subTransform_write transformerKey permissionLvl)
    (fun s =>
       let d1 := set_alwaysFlag Null (self s) in
       Ok (MkStore (next_ref s)
             (_checkAndReset (slot d1 (property_key (curPermissionLvl d1))) d1))).

(** *** Transform *)

Definition transform (permission : string) (instance : SourceInstance)
    (d : FieldMapperDelegate) : Promise Value Failure :=
  match slot d permission with
  | Val fieldMapper => FieldMapper_map (obj fieldMapper) instance (sourceKey d) (isList d)
  | _ => Resolved Undefined
  end.

(** *** Generated accessors at run time *)

Definition class_method (sel : selector) (permission : string) : method :=
  match sel with
  | AtOrAbove => atOrAbove permission
  | When => when permission
  | RestrictTo => restrictTo permission
  end.

(** [if (!this._defaultPermissionRanking) throw ...] *)
Definition guard : method := fun s =>
  if truthy_flag (_defaultPermissionRanking (self s)) then Ok s
  else Throw OverwrittenDefaultAPI.

(** [this.<sel>(permission)] inside a generated accessor.  The property is
    looked up on the instance, then on the prototype.  A generated accessor
    carries the very name of a selection method only for the empty token
    ([capitalize("")] is empty); such an accessor calls itself without end,
    the prototype one after passing its guard. *)
Definition send (sel : selector) (permission : string) : method := fun s =>
  match methods (self s) !! selector_name sel with
  | Some _ => Throw RangeError
  | None =>
      match prototype_accessors !! selector_name sel with
      | Some _ => andThen guard (fun _ => Throw RangeError) s
      | None => class_method sel permission s
      end
  end.

(** [this[name]()] for the name of a generated accessor: the instance's own
    accessor shadows the prototype's.  [None] when no accessor of that name
    was generated on either. *)
Definition invoke (name : string) (s : Store) : option (outcome Store) :=
  match methods (self s) !! name with
  | Some (sel, permission) => Some (send sel permission s)
  | None =>
      match prototype_accessors !! name with
      | Some (sel, permission) => Some (andThen guard (send sel permission) s)
      | None => None
      end
  end.

(** *** Builder calls and the delegates they reach *)

Inductive call : Type :=
| CallAlways
| CallWhen (permission : string)
| CallAtOrAbove (permission : string)
| CallRestrictTo (permission : string)
| CallPassthrough
| CallBuildWith (builder : Builder)
| CallSubTransform (transformerKey : Transformer) (permissionLvl : nullable string)
| CallAsList
| CallAccessor (name : string).

(** [CallAccessor name] is [this[name]()] for a generated accessor; a name
    that no generated accessor carries is answered with a [TypeError]. *)
Definition exec (c : call) : method :=
  match c with
  | CallAlways => always
  | CallWhen p => when p
  | CallAtOrAbove p => atOrAbove p
  | CallRestrictTo p => restrictTo p
  | CallPassthrough => passthrough
  | CallBuildWith b => buildWith b
  | CallSubTransform t l => subTransform t l
  | CallAsList => asList
  | CallAccessor name => fun s =>
      match invoke name s with Some r => r | None => Throw TypeError end
  end.

(** Every [throw] of the class precedes the first write to [this], so a call
    that throws leaves the delegate as it was and the caller may go on. *)
Fixpoint run (calls : list call) (s : Store) : Store :=
  match calls with
  | [] => s
  | c :: rest =>
      match exec c s with
      | Ok s' => run rest s'
      | Throw _ => run rest s
      end
  end.

End Delegate.

(** ** Auxiliary notions for the proofs *)

Section Auxiliary.

Context `{Collaborators}.

(** Both narrowing loops have this shape: slot [ranking[i]] receives a value
    that depends on the index [i] only. *)
Fixpoint indexed_writes (f : nat -> nullable mapper) (i : nat)
    (ranking : list string) (d : FieldMapperDelegate) : FieldMapperDelegate :=
  match ranking with
  | [] => d
  | permission :: rest => indexed_writes f (S i) rest (write_slot permission (f i) d)
  end.

(** [d'] differs from [d] in the mapping table at most. *)
Definition same_fields (d d' : FieldMapperDelegate) : Prop :=
  d' = set_delegate (delegate d') d.

(** [d'] has the ranking, the generated accessors, the default-ranking mark
    and the source key of [d]: what the constructor sets and no method
    changes. *)
Definition same_construction (d d' : FieldMapperDelegate) : Prop :=
  permissionRanking d' = permissionRanking d /\
  methods d' = methods d /\
  _defaultPermissionRanking d' = _defaultPermissionRanking d /\
  sourceKey d' = sourceKey d.

(** Every mapper held by the table satisfies [Q]. *)
Definition table_all (Q : mapper -> Prop) (d : FieldMapperDelegate) : Prop :=
  forall k m, slot d k = Val m -> Q m.

(** The token that a generated name ends up bound to: each round of the
    generating loop overwrites the properties of the same name, so the last
    token whose capitalized form is [c] wins. *)
Definition bound_token (c : string) (ranking : list string) : option string :=
  last (filter (fun q => capitalize q = c) ranking).

(** The assignment calls among the builder calls. *)
Definition is_assignment (c : call) : Prop :=
  match c with
  | CallPassthrough | CallBuildWith _ | CallSubTransform _ _ => True
  | _ => False
  end.

(** A freshly constructed delegate on a heap with [n] objects allocated. *)
Definition fresh_store (n : nat) (key : nullable string) (custom : option (list string))
  : Store :=
  MkStore n (new_delegate key custom).

End Auxiliary.

(** Modelled from the spec: the collaborators that are not among the
    sources, for concrete instances only (every general statement below
    holds for any collaborators).  The default ranking of [./permission]:
    the specification and the test-suite name its tokens PUBLIC and PRIVATE
    (accessors [whenPrivate], [atOrAbovePublic], [restrictToPrivate]).  The
    mappers of [./fieldMapper]: pass-through reads [instance[sourceKey]];
    custom invokes the caller's function and resolves with its result;
    sub-transform hands the nested value to the referenced transformer at
    the bound permission level. *)
Definition sample_map
    (m : FieldMapper (gmap string Z -> nullable string -> nullable bool -> nullable Z)
                     (string -> nullable Z -> Promise Z string))
    (instance : gmap string Z) (sourceKey : nullable string) (isList : nullable bool)
  : Promise Z string :=
  let field := default Undefined (Val <$> instance !! property_key sourceKey) in
  match m with
  | PassthroughFieldMapper => Resolved field
  | CustomFieldMapper builder => Resolved (builder instance sourceKey isList)
  | SubTransformFieldMapper transformer permission => transformer permission field
  end.

Definition sample_collaborators : Collaborators :=
  {| Builder := gmap string Z -> nullable string -> nullable bool -> nullable Z;
     Transformer := string -> nullable Z -> Promise Z string;
     SourceInstance := gmap string Z;
     Value := Z;
     Failure := string;
     PermissionRanking := ["PUBLIC"; "PRIVATE"];
     FieldMapper_map := sample_map |}.

(** Concrete delegates, as the test-suite builds them: field "woop", over
    the default ranking and over the custom ranking low < medium < high. *)
Definition sample_default : @Store sample_collaborators :=
  fresh_store 0 (Val "woop") None.

Definition sample_custom : @Store sample_collaborators :=
  fresh_store 0 (Val "woop") (Some ["low"; "medium"; "high"]).


(** The custom delegate after [restrictToMedium()]. *)
Definition sample_sole : @Store sample_collaborators :=
  run [CallAccessor "restrictToMedium"] sample_custom.

Definition sample_instance : gmap string Z := {[ "woop" := 200 ]}.

Definition sample_transformer : string -> nullable Z -> Promise Z string :=
  fun _ nested => Resolved nested.

Definition sample_builder : @Builder sample_collaborators :=
  fun _ _ _ => Val 7.

(** * Properties *)

Section Properties.

Context `{Collaborators}.

(** ** The mapping table *)

Lemma slot_write_slot k v d k' :
  slot (write_slot k v d) k' = if decide (k = k') then v else slot d k'.
Proof.
  unfold slot, write_slot. simpl. rewrite lookup_insert.
  by case_decide.
Qed.

Lemma slot_write_slot_eq k v d : slot (write_slot k v d) k = v.
Proof. rewrite slot_write_slot. by case_decide. Qed.

Lemma slot_write_slot_ne k v d k' : k ≠ k' -> slot (write_slot k v d) k' = slot d k'.
Proof. intros. rewrite slot_write_slot. by case_decide. Qed.

Lemma same_fields_refl d : same_fields d d.
Proof. by destruct d. Qed.

Lemma same_fields_trans d1 d2 d3 :
  same_fields d1 d2 -> same_fields d2 d3 -> same_fields d1 d3.
Proof. unfold same_fields. intros H12 H23. rewrite H23, H12. done. Qed.

Lemma same_fields_write_slot k v d : same_fields d (write_slot k v d).
Proof. by destruct d. Qed.

Lemma table_all_write_slot Q k v d :
  table_all Q d -> (forall m, v = Val m -> Q m) -> table_all Q (write_slot k v d).
Proof.
  intros Hd Hv k' m. rewrite slot_write_slot. case_decide; eauto.
Qed.

(** ** The narrowing loops *)

Lemma restrictTo_loop_indexed sole fm i r d :
  restrictTo_loop sole fm i r d =
  indexed_writes (fun j => if decide (Z.of_nat j ≠ sole) then Null else fm) i r d.
Proof.
  revert i d. induction r as [|p r IH]; intros i d; simpl; [done|].
  rewrite IH. by case_decide.
Qed.

Lemma restrictAtOrAbove_loop_indexed cutoff fm i r d :
  restrictAtOrAbove_loop cutoff fm i r d =
  indexed_writes (fun j => if decide (Z.of_nat j < cutoff) then Null else fm) i r d.
Proof.
  revert i d. induction r as [|p r IH]; intros i d; simpl; [done|].
  rewrite IH. by case_decide.
Qed.

Lemma indexed_writes_same_fields f i r d : same_fields d (indexed_writes f i r d).
Proof.
  revert i d. induction r as [|p r IH]; intros i d; simpl.
  - apply same_fields_refl.
  - eapply same_fields_trans; [apply same_fields_write_slot | apply IH].
Qed.

Lemma indexed_writes_other f i r d k :
  k ∉ r -> slot (indexed_writes f i r d) k = slot d k.
Proof.
  revert i d. induction r as [|p r IH]; intros i d Hk; simpl; [done|].
  apply not_elem_of_cons in Hk as [Hne Hk].
  rewrite IH by done. by apply slot_write_slot_ne.
Qed.

Lemma indexed_writes_slot f i r d j L :
  NoDup r -> r !! j = Some L -> slot (indexed_writes f i r d) L = f (i + j)%nat.
Proof.
  revert i d j. induction r as [|p r IH]; intros i d j Hnd Hj; [done|].
  apply NoDup_cons in Hnd as [Hp Hnd]. simpl. destruct j as [|j]; simpl in Hj.
  - injection Hj as ->. rewrite indexed_writes_other by done.
    rewrite slot_write_slot_eq. f_equal. lia.
  - rewrite (IH _ _ j) by done. f_equal. lia.
Qed.

Lemma indexed_writes_table_all Q f i r d :
  table_all Q d -> (forall j m, f j = Val m -> Q m) ->
  table_all Q (indexed_writes f i r d).
Proof.
  revert i d. induction r as [|p r IH]; intros i d Hd Hf; simpl; [done|].
  apply IH; [|done]. apply table_all_write_slot; eauto.
Qed.

(** ** Broadcast *)

Lemma always_fold_spec r d :
  let d' := foldl (fun d' permission =>
                     write_slot permission (slot d' (property_key (curPermissionLvl d'))) d')
                  d r in
  let v := slot d (property_key (curPermissionLvl d)) in
  same_fields d d' /\
  slot d' (property_key (curPermissionLvl d)) = v /\
  (forall P, P ∈ r -> slot d' P = v) /\
  (forall k, k ∉ r -> slot d' k = slot d k).
Proof.
  revert d. induction r as [|p r IH]; intros d; simpl.
  - split; [apply same_fields_refl|]. split; [done|]. split; [|done].
    intros P HP. by apply elem_of_nil in HP.
  - set (kc := property_key (curPermissionLvl d)).
    set (d1 := write_slot p (slot d kc) d).
    assert (Hcur : curPermissionLvl d1 = curPermissionLvl d) by done.
    assert (Hkc : slot d1 (property_key (curPermissionLvl d1)) = slot d kc).
    { rewrite Hcur. fold kc. unfold d1. rewrite slot_write_slot. by case_decide; subst. }
    destruct (IH d1) as (Hf & Hc & Hin & Hout).
    rewrite Hkc in Hc, Hin. rewrite Hcur in Hc. fold kc in Hc.
    split; [eapply same_fields_trans; [apply same_fields_write_slot | exact Hf]|].
    split; [exact Hc|]. split.
    + intros P HP. destruct (decide (P ∈ r)) as [Hr|Hr]; [by apply Hin|].
      apply elem_of_cons in HP as [->|HP]; [|done].
      rewrite Hout by done. apply slot_write_slot_eq.
    + intros k Hk. apply not_elem_of_cons in Hk as [Hne Hk].
      rewrite Hout by done. by apply slot_write_slot_ne.
Qed.

Lemma always_fold_table_all Q r d :
  table_all Q d ->
  table_all Q (foldl (fun d' permission =>
                 write_slot permission (slot d' (property_key (curPermissionLvl d'))) d')
               d r).
Proof.
  revert d. induction r as [|p r IH]; intros d Hd; simpl; [done|].
  apply IH. apply table_all_write_slot; [done|]. intros m Hm. by apply Hd in Hm.
Qed.

Lemma _always_same_fields d : same_fields d (_always d).
Proof.
  unfold _always. destruct (truthy_flag (alwaysFlag d)).
  - apply always_fold_spec.
  - apply same_fields_refl.
Qed.

Lemma _always_unset d : truthy_flag (alwaysFlag d) = false -> _always d = d.
Proof. unfold _always. by intros ->. Qed.

Lemma _always_slot d P :
  truthy_flag (alwaysFlag d) = true -> P ∈ permissionRanking d ->
  slot (_always d) P = slot d (property_key (curPermissionLvl d)).
Proof.
  unfold _always. intros ->. apply always_fold_spec.
Qed.

Lemma _always_other d k : k ∉ permissionRanking d -> slot (_always d) k = slot d k.
Proof.
  unfold _always. destruct (truthy_flag (alwaysFlag d)); [|done].
  apply always_fold_spec.
Qed.

Lemma _always_table_all Q d : table_all Q d -> table_all Q (_always d).
Proof.
  unfold _always. destruct (truthy_flag (alwaysFlag d)); [|done].
  apply always_fold_table_all.
Qed.

(** ** [_checkAndReset] *)

Lemma same_fields_proj d d' :
  same_fields d d' ->
  permissionRanking d' = permissionRanking d /\
  restrictAtOrAbove d' = restrictAtOrAbove d /\
  restrict d' = restrict d /\
  alwaysFlag d' = alwaysFlag d /\
  curPermissionLvl d' = curPermissionLvl d.
Proof. intros ->. by repeat split. Qed.

Lemma _restrictAtOrAbove_same_fields fm d : same_fields d (_restrictAtOrAbove fm d).
Proof.
  unfold _restrictAtOrAbove. destruct (restrictAtOrAbove d); try apply same_fields_refl.
  rewrite restrictAtOrAbove_loop_indexed. apply indexed_writes_same_fields.
Qed.

Lemma _restrictTo_same_fields fm d : same_fields d (_restrictTo fm d).
Proof.
  unfold _restrictTo. destruct (restrict d); try apply same_fields_refl.
  rewrite restrictTo_loop_indexed. apply indexed_writes_same_fields.
Qed.

Lemma narrowing_same_fields fm d :
  same_fields d (_restrictTo fm (_restrictAtOrAbove fm (_always d))).
Proof.
  eapply same_fields_trans; [apply _always_same_fields|].
  eapply same_fields_trans; [apply _restrictAtOrAbove_same_fields|].
  apply _restrictTo_same_fields.
Qed.

Lemma _checkAndReset_fields fm d :
  _checkAndReset fm d =
  Delegate (permissionRanking d) (_defaultPermissionRanking d) (methods d)
    (sourceKey d) (delegate (_checkAndReset fm d)) Null Null
    (restrictAtOrAbove d) (restrict d) (isList d).
Proof.
  unfold _checkAndReset. rewrite (narrowing_same_fields fm d). done.
Qed.

Lemma _checkAndReset_slot fm d k :
  slot (_checkAndReset fm d) k =
  slot (_restrictTo fm (_restrictAtOrAbove fm (_always d))) k.
Proof. done. Qed.

Lemma _restrictTo_unset fm d : is_set (restrict d) = false -> _restrictTo fm d = d.
Proof. unfold _restrictTo. by destruct (restrict d). Qed.

Lemma _restrictAtOrAbove_unset fm d :
  is_set (restrictAtOrAbove d) = false -> _restrictAtOrAbove fm d = d.
Proof. unfold _restrictAtOrAbove. by destruct (restrictAtOrAbove d). Qed.

Lemma _restrictTo_slot fm d sole j L :
  restrict d = Val sole -> NoDup (permissionRanking d) ->
  permissionRanking d !! j = Some L ->
  slot (_restrictTo fm d) L = if decide (Z.of_nat j ≠ sole) then Null else fm.
Proof.
  intros Hr Hnd Hj. unfold _restrictTo. rewrite Hr, restrictTo_loop_indexed.
  by rewrite (indexed_writes_slot _ _ _ _ j L).
Qed.

Lemma _restrictAtOrAbove_slot fm d cutoff j L :
  restrictAtOrAbove d = Val cutoff -> NoDup (permissionRanking d) ->
  permissionRanking d !! j = Some L ->
  slot (_restrictAtOrAbove fm d) L = if decide (Z.of_nat j < cutoff) then Null else fm.
Proof.
  intros Hr Hnd Hj. unfold _restrictAtOrAbove. rewrite Hr, restrictAtOrAbove_loop_indexed.
  by rewrite (indexed_writes_slot _ _ _ _ j L).
Qed.

Lemma _restrictTo_other fm d k :
  k ∉ permissionRanking d -> slot (_restrictTo fm d) k = slot d k.
Proof.
  intros Hk. unfold _restrictTo. destruct (restrict d); try done.
  rewrite restrictTo_loop_indexed. by apply indexed_writes_other.
Qed.

Lemma _restrictAtOrAbove_other fm d k :
  k ∉ permissionRanking d -> slot (_restrictAtOrAbove fm d) k = slot d k.
Proof.
  intros Hk. unfold _restrictAtOrAbove. destruct (restrictAtOrAbove d); try done.
  rewrite restrictAtOrAbove_loop_indexed. by apply indexed_writes_other.
Qed.

Lemma _checkAndReset_sole fm d sole j L :
  restrict d = Val sole -> NoDup (permissionRanking d) ->
  permissionRanking d !! j = Some L ->
  slot (_checkAndReset fm d) L = if decide (Z.of_nat j ≠ sole) then Null else fm.
Proof.
  intros Hr Hnd Hj. rewrite _checkAndReset_slot.
  set (d2 := _restrictAtOrAbove fm (_always d)).
  assert (Hsf : same_fields d d2).
  { eapply same_fields_trans;
      [apply _always_same_fields | apply _restrictAtOrAbove_same_fields]. }
  apply same_fields_proj in Hsf as (Hrk & _ & Hre & _).
  apply _restrictTo_slot; congruence.
Qed.

Lemma _checkAndReset_cutoff fm d cutoff j L :
  is_set (restrict d) = false -> restrictAtOrAbove d = Val cutoff ->
  NoDup (permissionRanking d) -> permissionRanking d !! j = Some L ->
  slot (_checkAndReset fm d) L = if decide (Z.of_nat j < cutoff) then Null else fm.
Proof.
  intros Hr Hc Hnd Hj. rewrite _checkAndReset_slot.
  set (d1 := _always d).
  assert (Hsf1 : same_fields d d1) by apply _always_same_fields.
  assert (Hsf2 : same_fields d (_restrictAtOrAbove fm d1)).
  { eapply same_fields_trans; [exact Hsf1 | apply _restrictAtOrAbove_same_fields]. }
  apply same_fields_proj in Hsf1 as (Hrk1 & Hc1 & _).
  apply same_fields_proj in Hsf2 as (_ & _ & Hr2 & _).
  rewrite _restrictTo_unset by congruence.
  apply _restrictAtOrAbove_slot; congruence.
Qed.

Lemma _checkAndReset_plain fm d k :
  is_set (restrict d) = false -> is_set (restrictAtOrAbove d) = false ->
  slot (_checkAndReset fm d) k = slot (_always d) k.
Proof.
  intros Hr Hc. rewrite _checkAndReset_slot.
  destruct (same_fields_proj _ _ (_always_same_fields d)) as (_ & Hc1 & Hr1 & _).
  rewrite (_restrictAtOrAbove_unset fm (_always d)) by congruence.
  rewrite _restrictTo_unset by congruence. done.
Qed.

Lemma _checkAndReset_other fm d k :
  k ∉ permissionRanking d -> slot (_checkAndReset fm d) k = slot d k.
Proof.
  intros Hk. rewrite _checkAndReset_slot.
  set (d1 := _always d). set (d2 := _restrictAtOrAbove fm d1).
  assert (Hsf1 : same_fields d d1) by apply _always_same_fields.
  assert (Hsf2 : same_fields d d2).
  { eapply same_fields_trans; [exact Hsf1 | apply _restrictAtOrAbove_same_fields]. }
  apply same_fields_proj in Hsf1 as (Hrk1 & _).
  apply same_fields_proj in Hsf2 as (Hrk2 & _).
  rewrite _restrictTo_other by congruence.
  unfold d2. rewrite _restrictAtOrAbove_other by congruence.
  by apply _always_other.
Qed.

Lemma _restrictTo_table_all Q fm d :
  table_all Q d -> (forall m, fm = Val m -> Q m) -> table_all Q (_restrictTo fm d).
Proof.
  intros Hd Hfm. unfold _restrictTo. destruct (restrict d); try done.
  rewrite restrictTo_loop_indexed. apply indexed_writes_table_all; [done|].
  intros j m. case_decide; [done | apply Hfm].
Qed.

Lemma _restrictAtOrAbove_table_all Q fm d :
  table_all Q d -> (forall m, fm = Val m -> Q m) -> table_all Q (_restrictAtOrAbove fm d).
Proof.
  intros Hd Hfm. unfold _restrictAtOrAbove. destruct (restrictAtOrAbove d); try done.
  rewrite restrictAtOrAbove_loop_indexed. apply indexed_writes_table_all; [done|].
  intros j m. case_decide; [done | apply Hfm].
Qed.

Lemma _checkAndReset_table_all Q fm d :
  table_all Q d -> (forall m, fm = Val m -> Q m) -> table_all Q (_checkAndReset fm d).
Proof.
  intros Hd Hfm k m. rewrite _checkAndReset_slot. revert k m.
  apply _restrictTo_table_all; [|done].
  apply _restrictAtOrAbove_table_all; [|done].
  by apply _always_table_all.
Qed.

(** ** [indexOf] *)

Lemma indexOf_from_spec r x i :
  0 <= i ->
  ((x ∉ r) /\ indexOf_from r x i = -1) \/
  (exists j : nat, r !! j = Some x /\ indexOf_from r x i = i + Z.of_nat j).
Proof.
  revert i. induction r as [|y r IH]; intros i Hi; simpl.
  - left. split; [apply not_elem_of_nil | done].
  - case_decide as Hy.
    + subst y. right. exists 0%nat. split; [done | lia].
    + destruct (IH (i + 1)) as [[Hx Hm]|(j & Hj & Hm)]; [lia| |].
      * left. split; [|done]. apply not_elem_of_cons. split; [congruence | done].
      * right. exists (S j). split; [done | lia].
Qed.

Lemma indexOf_elem r x :
  x ∈ r -> exists j : nat, r !! j = Some x /\ indexOf r x = Z.of_nat j.
Proof.
  intros Hx. destruct (indexOf_from_spec r x 0) as [[Hn _]|(j & Hj & Hm)]; [lia | done |].
  exists j. split; [done|]. unfold indexOf. lia.
Qed.

Lemma indexOf_not_elem r x : x ∉ r -> indexOf r x = -1.
Proof.
  intros Hx. destruct (indexOf_from_spec r x 0) as [[_ Hm]|(j & Hj & _)]; [lia | done |].
  destruct Hx. by eapply list_elem_of_lookup_2.
Qed.

(** ** Transform resolution *)


(** ** Broadcast chains *)

#[local] Arguments _checkAndReset : simpl never.

Lemma assign_spec o s :
  let m := Mapper (next_ref s) o in
  let d1 := write_slot (property_key (curPermissionLvl (self s))) (Val m) (self s) in
  assign o s = Ok (MkStore (S (next_ref s)) (_checkAndReset (Val m) d1)).
Proof.
  unfold assign, alloc. simpl. by rewrite slot_write_slot_eq.
Qed.

(** C2 (as amended).  On a delegate with neither a cutoff nor a sole index
    pending, [always()] followed by [passthrough()] returns, leaves
    [curPermissionLvl] at [null], and every level of the ranking holds the
    pass-through mapper allocated by the call: one instance for all
    levels. *)
Theorem always_passthrough_broadcast (s : Store) :
  is_set (restrictAtOrAbove (self s)) = false ->
  is_set (restrict (self s)) = false ->
  exists s',
    andThen always passthrough s = Ok s' /\
    curPermissionLvl (self s') = Null /\
    forall P, P ∈ permissionRanking (self s) ->
      slot (self s') P = Val (Mapper (next_ref s) PassthroughFieldMapper).
Proof.
  intros Hc Hr. unfold andThen, always, passthrough. rewrite assign_spec. simpl.
  eexists. split; [done|]. simpl. split; [done|].
  intros P HP. rewrite _checkAndReset_plain by done.
  rewrite _always_slot by done. simpl. apply slot_write_slot_eq.
Qed.

(** ** Sole restriction *)


(** ** Sub-transform assignment *)

Lemma constant_writes_indexed (v : nullable mapper) i r d :
  foldl (fun d' lvl => write_slot lvl v d') d r = indexed_writes (fun _ => v) i r d.
Proof.
  revert i d. induction r as [|p r IH]; intros i d; simpl; [done|]. apply IH.
Qed.

Lemma constant_writes_slot (v : nullable mapper) i r d L :
  L ∈ r -> slot (indexed_writes (fun _ => v) i r d) L = v.
Proof.
  revert i d. induction r as [|p r IH]; intros i d HL; simpl.
  - by apply elem_of_nil in HL.
  - destruct (decide (L ∈ r)) as [Hr|Hr]; [by apply IH|].
    apply elem_of_cons in HL as [->|HL]; [|done].
    rewrite indexed_writes_other by done. apply slot_write_slot_eq.
Qed.

Lemma subTransform_fixed_spec t lvl s :
  let m := Mapper (next_ref s) (SubTransformFieldMapper t lvl) in
  let s1 := subTransform_fixed t lvl s in
  next_ref s1 = S (next_ref s) /\
  same_fields (self s) (self s1) /\
  (forall L, L ∈ permissionRanking (self s) -> slot (self s1) L = Val m) /\
  (forall k, k ∉ permissionRanking (self s) -> slot (self s1) k = slot (self s) k) /\
  (forall Q, table_all Q (self s) -> Q m -> table_all Q (self s1)).
Proof.
  unfold subTransform_fixed, alloc, on_self. simpl.
  rewrite (constant_writes_indexed _ 0%nat).
  split; [done|]. split; [apply indexed_writes_same_fields|].
  split; [intros L HL; by apply constant_writes_slot|].
  split; [intros k Hk; by apply indexed_writes_other|].
  intros Q Hd Hm. apply indexed_writes_table_all; [done|]. by intros _ m' [= <-].
Qed.

Lemma cascade_fold_spec t r s :
  let s1 := foldl (cascade_step t) s r in
  next_ref s1 = (next_ref s + length r)%nat /\
  same_fields (self s) (self s1) /\
  (forall k, k ∉ r -> slot (self s1) k = slot (self s) k) /\
  (forall L, L ∈ r -> exists j : nat,
      r !! j = Some L /\
      slot (self s1) L = Val (Mapper (next_ref s + j) (SubTransformFieldMapper t L))) /\
  (forall Q, table_all Q (self s) ->
             (forall n L, Q (Mapper n (SubTransformFieldMapper t L))) ->
             table_all Q (self s1)).
Proof.
  revert s. induction r as [|p r IH]; intros s; simpl.
  - split; [lia|]. split; [apply same_fields_refl|]. split; [done|].
    split; [|done]. intros L HL. by apply elem_of_nil in HL.
  - set (s0 := cascade_step t s p).
    destruct (IH s0) as (Hn & Hf & Hout & Hin & Hq). clear IH.
    assert (Hn0 : next_ref s0 = S (next_ref s)) by done.
    assert (Hs0 : self s0 =
      write_slot p (Val (Mapper (next_ref s) (SubTransformFieldMapper t p))) (self s))
      by done.
    split; [lia|].
    split; [eapply same_fields_trans; [|exact Hf]; rewrite Hs0;
            apply same_fields_write_slot|].
    split.
    { intros k Hk. apply not_elem_of_cons in Hk as [Hne Hk].
      rewrite Hout, Hs0 by done. by apply slot_write_slot_ne. }
    split.
    { intros L HL. destruct (decide (L ∈ r)) as [Hr|Hr].
      - destruct (Hin L Hr) as (j & Hj & Hs). exists (S j). split; [done|].
        rewrite Hs, Hn0. do 2 f_equal. lia.
      - apply elem_of_cons in HL as [->|HL]; [|done]. exists 0%nat. split; [done|].
        rewrite Hout, Hs0, slot_write_slot_eq by done. do 2 f_equal. lia. }
    intros Q Hd HQ. apply Hq; [|done]. rewrite Hs0.
    apply table_all_write_slot; [done|]. intros m [= <-]. apply HQ.
Qed.

Lemma subTransform_cascade_spec t s :
  let s1 := subTransform_cascade t s in
  same_fields (self s) (self s1) /\
  (forall k, k ∉ permissionRanking (self s) -> slot (self s1) k = slot (self s) k) /\
  (forall L, L ∈ permissionRanking (self s) -> exists j : nat,
      permissionRanking (self s) !! j = Some L /\
      slot (self s1) L = Val (Mapper (next_ref s + j) (SubTransformFieldMapper t L))) /\
  (forall Q, table_all Q (self s) ->
             (forall n L, Q (Mapper n (SubTransformFieldMapper t L))) ->
             table_all Q (self s1)).
Proof.
  unfold subTransform_cascade.
  destruct (cascade_fold_spec t (permissionRanking (self s)) s) as (_ & ? & ? & ? & ?).
  done.
Qed.

Lemma truthy_string_Val lvl : truthy_string (Val lvl) = true <-> lvl ≠ "".
Proof.
  simpl. destruct (String.eqb_spec lvl ""); simpl; split; intros; congruence.
Qed.

Lemma subTransform_write_fixed t lvl s :
  lvl ≠ "" -> lvl ∈ permissionRanking (self s) ->
  subTransform_write t (Val lvl) s = Ok (subTransform_fixed t lvl s).
Proof.
  intros Hne Hin. unfold subTransform_write.
  rewrite (proj2 (truthy_string_Val lvl) Hne). simpl.
  destruct (indexOf_elem _ _ Hin) as (j & _ & ->). case_decide; [lia | done].
Qed.

Lemma subTransform_write_invalid t lvl s :
  lvl ≠ "" -> lvl ∉ permissionRanking (self s) ->
  subTransform_write t (Val lvl) s = Throw InvalidPermissionLvl.
Proof.
  intros Hne Hin. unfold subTransform_write.
  rewrite (proj2 (truthy_string_Val lvl) Hne). simpl.
  rewrite indexOf_not_elem by done. by case_decide.
Qed.

(** What [subTransform] does once its writes are done. *)
Lemma subTransform_after_write t l s s1 :
  subTransform_write t l s = Ok s1 ->
  subTransform t l s =
  Ok (MkStore (next_ref s1)
        (_checkAndReset (slot (self s1) (property_key (curPermissionLvl (self s1))))
           (set_alwaysFlag Null (self s1)))).
Proof. unfold subTransform, andThen. by intros ->. Qed.

Lemma subTransform_write_same_fields t l s s1 :
  subTransform_write t l s = Ok s1 -> same_fields (self s) (self s1).
Proof.
  unfold subTransform_write. destruct (truthy_string l).
  - case_decide; [done|]. intros [= <-]. apply subTransform_fixed_spec.
  - intros [= <-]. apply subTransform_cascade_spec.
Qed.

Lemma unpending_final_slot fm d k :
  is_set (restrictAtOrAbove d) = false -> is_set (restrict d) = false ->
  slot (_checkAndReset fm (set_alwaysFlag Null d)) k = slot d k.
Proof.
  intros Hc Hr. rewrite _checkAndReset_plain by done. by rewrite _always_unset.
Qed.

#[local] Arguments subTransform_fixed : simpl never.
#[local] Arguments subTransform_cascade : simpl never.

(** C5 (as amended).  [subTransform(ref, explicitLevel)] with a non-empty
    [explicitLevel] of the ranking allocates ONE sub-transform mapper bound
    to [explicitLevel] and writes that same instance into the slot of every
    level; with a non-empty [explicitLevel] outside the ranking it throws
    before writing anything.  [subTransform(ref)] without a level writes
    into the slot of every level [L] a mapper bound to [L], and the mappers
    of different levels are different instances.  In both modes the call
    returns with the broadcast flag cleared, and since the flag is cleared
    before narrowing runs, a delegate with no restriction pending keeps the
    slots exactly as written, whatever the flag was before. *)
Theorem subTransform_modes (s : Store) (t : Transformer) :
  (forall lvl, lvl ≠ "" -> lvl ∈ permissionRanking (self s) ->
     let m := Mapper (next_ref s) (SubTransformFieldMapper t lvl) in
     exists s1 s',
       subTransform_write t (Val lvl) s = Ok s1 /\
       (forall L, L ∈ permissionRanking (self s) -> slot (self s1) L = Val m) /\
       subTransform t (Val lvl) s = Ok s' /\
       alwaysFlag (self s') = Null /\
       (is_set (restrictAtOrAbove (self s)) = false ->
        is_set (restrict (self s)) = false ->
        forall L, L ∈ permissionRanking (self s) -> slot (self s') L = Val m)) /\
  (forall lvl, lvl ≠ "" -> lvl ∉ permissionRanking (self s) ->
     subTransform t (Val lvl) s = Throw InvalidPermissionLvl) /\
  (exists s1 s',
     subTransform_write t Undefined s = Ok s1 /\
     (forall L, L ∈ permissionRanking (self s) ->
        exists m, slot (self s1) L = Val m /\ obj m = SubTransformFieldMapper t L) /\
     (forall L1 L2 m1 m2,
        L1 ∈ permissionRanking (self s) -> L2 ∈ permissionRanking (self s) ->
        L1 ≠ L2 -> slot (self s1) L1 = Val m1 -> slot (self s1) L2 = Val m2 ->
        ref m1 ≠ ref m2) /\
     subTransform t Undefined s = Ok s' /\
     alwaysFlag (self s') = Null /\
     (is_set (restrictAtOrAbove (self s)) = false ->
      is_set (restrict (self s)) = false ->
      forall L, slot (self s') L = slot (self s1) L)).
Proof.
  split; [|split].
  - intros lvl Hne Hin m.
    pose proof (subTransform_write_fixed t lvl s Hne Hin) as Hw.
    destruct (subTransform_fixed_spec t lvl s) as (_ & Hsf & Hall & _).
    apply same_fields_proj in Hsf as (_ & Hc & Hr & _).
    eexists _, _. split; [exact Hw|]. split; [exact Hall|].
    split; [exact (subTransform_after_write _ _ _ _ Hw)|]. split; [done|].
    intros Hc0 Hr0 L HL. cbn [self].
    rewrite unpending_final_slot by congruence. by apply Hall.
  - intros lvl Hne Hin. unfold subTransform, andThen.
    by rewrite subTransform_write_invalid.
  - assert (Hw : subTransform_write t Undefined s = Ok (subTransform_cascade t s)) by done.
    destruct (subTransform_cascade_spec t s) as (Hsf & _ & Hin & _).
    apply same_fields_proj in Hsf as (_ & Hc & Hr & _).
    eexists _, _. split; [exact Hw|]. split.
    { intros L HL. destruct (Hin L HL) as (j & _ & Hs). eexists. by split. }
    split.
    { intros L1 L2 m1 m2 H1 H2 Hne Hs1 Hs2.
      destruct (Hin L1 H1) as (j1 & Hj1 & Hm1).
      destruct (Hin L2 H2) as (j2 & Hj2 & Hm2).
      rewrite Hm1 in Hs1. rewrite Hm2 in Hs2.
      injection Hs1 as <-. injection Hs2 as <-. simpl.
      intros Heq. assert (j1 = j2) by lia. congruence. }
    split; [exact (subTransform_after_write _ _ _ _ Hw)|]. split; [done|].
    intros Hc0 Hr0 L. cbn [self]. apply unpending_final_slot; congruence.
Qed.

(** ** Cutoff restriction *)


(** ** Reset after an assignment *)

(** Every assignment call ends in [_checkAndReset], run on a delegate that
    differs from the initial one in the table and the broadcast flag only. *)
Lemma assignment_shape c s s' :
  is_assignment c -> exec c s = Ok s' ->
  exists fm d1,
    self s' = _checkAndReset fm d1 /\
    permissionRanking d1 = permissionRanking (self s) /\
    restrictAtOrAbove d1 = restrictAtOrAbove (self s) /\
    restrict d1 = restrict (self s).
Proof.
  destruct c; try done; intros _; simpl.
  - unfold passthrough. rewrite assign_spec. intros [= <-]. by eexists _, _.
  - unfold buildWith. rewrite assign_spec. intros [= <-]. by eexists _, _.
  - destruct (subTransform_write transformerKey permissionLvl s) as [s1|e] eqn:Hw.
    + rewrite (subTransform_after_write _ _ _ _ Hw). intros [= <-].
      apply subTransform_write_same_fields in Hw.
      apply same_fields_proj in Hw as (Hrk & Hc & Hr & _).
      eexists _, _. split; [done|]. by repeat split.
    + unfold subTransform, andThen. by rewrite Hw.
Qed.

Lemma assignment_returns c s :
  is_assignment c ->
  (exists s', exec c s = Ok s') \/
  (exists t lvl, c = CallSubTransform t (Val lvl) /\ lvl ≠ "" /\
                 (lvl ∉ permissionRanking (self s)) /\
                 exec c s = Throw InvalidPermissionLvl).
Proof.
  destruct c; try done; intros _; simpl.
  - left. unfold passthrough. rewrite assign_spec. by eexists.
  - left. unfold buildWith. rewrite assign_spec. by eexists.
  - destruct (subTransform_write transformerKey permissionLvl s) as [s1|e] eqn:Hw.
    + left. rewrite (subTransform_after_write _ _ _ _ Hw). by eexists.
    + right. unfold subTransform_write in Hw.
      destruct permissionLvl as [| |lvl]; try done.
      destruct (truthy_string (Val lvl)) eqn:Ht; [|done].
      apply truthy_string_Val in Ht. simpl in Hw.
      case_decide as Hidx; [|done].
      assert (Hnin : lvl ∉ permissionRanking (self s)).
      { intros Hin. destruct (indexOf_elem _ _ Hin) as (j & _ & Hj). lia. }
      exists transformerKey, lvl. repeat split; try done.
      unfold subTransform, andThen. by rewrite subTransform_write_invalid.
Qed.

(** C6.  Each assignment call ([passthrough], [buildWith], [subTransform])
    returns, except [subTransform] given a non-empty level outside the
    ranking, which throws.  When it returns, the current level and the
    broadcast flag are [null], while the cutoff index and the sole index are
    what they were before the call.  They are therefore applied again by the
    next assignment on the delegate although no selection call came in
    between: over a ranking of unique tokens, that second assignment leaves
    a denial at every index other than a pending sole index and, when no
    sole index is pending, at every index below a pending cutoff. *)
Theorem assignment_resets_selection (s : Store) (c : call) :
  is_assignment c ->
  ((exists s', exec c s = Ok s') \/
   (exists t lvl, c = CallSubTransform t (Val lvl) /\ lvl ≠ "" /\
                  (lvl ∉ permissionRanking (self s)) /\
                  exec c s = Throw InvalidPermissionLvl)) /\
  forall s', exec c s = Ok s' ->
    curPermissionLvl (self s') = Null /\
    alwaysFlag (self s') = Null /\
    restrictAtOrAbove (self s') = restrictAtOrAbove (self s) /\
    restrict (self s') = restrict (self s) /\
    forall c2 s'', is_assignment c2 -> exec c2 s' = Ok s'' ->
      NoDup (permissionRanking (self s)) ->
      forall (i : nat) (L : string), permissionRanking (self s) !! i = Some L ->
        (forall sole, restrict (self s) = Val sole -> Z.of_nat i ≠ sole ->
           slot (self s'') L = Null) /\
        (forall cutoff, is_set (restrict (self s)) = false ->
           restrictAtOrAbove (self s) = Val cutoff -> Z.of_nat i < cutoff ->
           slot (self s'') L = Null).
Proof.
  intros Hc. split; [by apply assignment_returns|].
  intros s' Hs'.
  destruct (assignment_shape _ _ _ Hc Hs') as (fm & d1 & Hself & Hrk & Hco & Hre).
  assert (Hrk' : permissionRanking (self s') = permissionRanking (self s)).
  { rewrite Hself, _checkAndReset_fields. done. }
  assert (Hco' : restrictAtOrAbove (self s') = restrictAtOrAbove (self s)).
  { rewrite Hself, _checkAndReset_fields. done. }
  assert (Hre' : restrict (self s') = restrict (self s)).
  { rewrite Hself, _checkAndReset_fields. done. }
  split; [by rewrite Hself, _checkAndReset_fields|].
  split; [by rewrite Hself, _checkAndReset_fields|].
  split; [done|]. split; [done|].
  intros c2 s'' Hc2 Hs'' Hnd i L HL.
  destruct (assignment_shape _ _ _ Hc2 Hs'') as (fm2 & d2 & Hself2 & Hrk2 & Hco2 & Hre2).
  rewrite Hself2. split.
  - intros sole Hsole Hi.
    rewrite (_checkAndReset_sole fm2 d2 sole i L) by congruence.
    by case_decide.
  - intros cutoff Hunset Hcut Hi.
    rewrite (_checkAndReset_cutoff fm2 d2 cutoff i L) by congruence.
    by case_decide.
Qed.

(** ** Generated accessor names *)

Lemma selector_name_inj sel1 sel2 a b :
  selector_name sel1 ++ a = selector_name sel2 ++ b -> sel1 = sel2 /\ a = b.
Proof. destruct sel1, sel2; intros Heq; by simplify_eq/=. Qed.


Lemma install_one_lookup tbl q sel c :
  install_one tbl q !! (selector_name sel ++ c) =
  if decide (capitalize q = c) then Some (sel, q) else tbl !! (selector_name sel ++ c).
Proof.
  unfold install_one, accessor_name. rewrite !lookup_insert.
  repeat case_decide;
    repeat match goal with
           | Heq : _ ++ _ = _ ++ _ |- _ => apply selector_name_inj in Heq as [? ?]
           end;
    subst; try done; by destruct sel.
Qed.

Lemma install_accessors_lookup r tbl sel c :
  install_accessors r tbl !! (selector_name sel ++ c) =
  match bound_token c r with
  | Some q => Some (sel, q)
  | None => tbl !! (selector_name sel ++ c)
  end.
Proof.
  unfold install_accessors, bound_token.
  revert tbl. induction r as [|q r IH]; intros tbl; simpl; [done|].
  rewrite IH, filter_cons, install_one_lookup.
  case_decide; [|done]. rewrite last_cons. by destruct (last _).
Qed.

Lemma bound_token_spec c r q :
  bound_token c r = Some q -> q ∈ r /\ capitalize q = c.
Proof.
  unfold bound_token. intros Hl. apply last_Some_elem_of in Hl.
  apply list_elem_of_filter in Hl as [? ?]. done.
Qed.

Lemma bound_token_elem c r p :
  p ∈ r -> capitalize p = c -> exists q, bound_token c r = Some q.
Proof.
  intros Hin Hc. unfold bound_token.
  apply last_is_Some. intros Hnil.
  by destruct (filter_nil_not_elem_of _ _ p Hnil Hc).
Qed.

Lemma bound_token_none c r :
  (forall q, q ∈ r -> capitalize q ≠ c) -> bound_token c r = None.
Proof.
  intros Hno. destruct (bound_token c r) as [q|] eqn:Hb; [|done].
  apply bound_token_spec in Hb as [Hin Hc]. by destruct (Hno q Hin).
Qed.


(** ** What builder calls leave alone *)

Lemma same_fields_construction d d' : same_fields d d' -> same_construction d d'.
Proof. intros ->. by repeat split. Qed.

Lemma same_construction_trans d1 d2 d3 :
  same_construction d1 d2 -> same_construction d2 d3 -> same_construction d1 d3.
Proof.
  unfold same_construction. intros (? & ? & ? & ?) (? & ? & ? & ?).
  repeat split; congruence.
Qed.

Lemma _checkAndReset_construction fm d : same_construction d (_checkAndReset fm d).
Proof. rewrite _checkAndReset_fields. by repeat split. Qed.

Lemma class_method_spec sel p s s' :
  class_method sel p s = Ok s' ->
  same_construction (self s) (self s') /\ delegate (self s') = delegate (self s).
Proof.
  destruct sel; simpl; unfold atOrAbove, when, restrictTo;
    repeat case_decide; intros [= <-]; by repeat split.
Qed.

Lemma send_spec sel p s s' :
  send sel p s = Ok s' ->
  same_construction (self s) (self s') /\ delegate (self s') = delegate (self s).
Proof.
  unfold send. destruct (methods (self s) !! selector_name sel); [done|].
  destruct (prototype_accessors !! selector_name sel).
  - unfold andThen. by destruct (guard s).
  - apply class_method_spec.
Qed.

Lemma guard_spec s s' : guard s = Ok s' -> s' = s.
Proof. unfold guard. destruct (truthy_flag _); by intros [= <-]. Qed.

Lemma invoke_spec name s s' :
  invoke name s = Some (Ok s') ->
  same_construction (self s) (self s') /\ delegate (self s') = delegate (self s).
Proof.
  unfold invoke. destruct (methods (self s) !! name) as [[sel p]|].
  - intros [= Hs]. by apply send_spec in Hs.
  - destruct (prototype_accessors !! name) as [[sel p]|]; [|done].
    intros [= Hs]. unfold andThen in Hs.
    destruct (guard s) as [s1|] eqn:Hg; [|done].
    apply guard_spec in Hg as ->. by apply send_spec in Hs.
Qed.

Lemma subTransform_spec t l s s' :
  subTransform t l s = Ok s' ->
  same_construction (self s) (self s') /\
  forall Q, table_all Q (self s) ->
            (forall n L, Q (Mapper n (SubTransformFieldMapper t L))) ->
            table_all Q (self s').
Proof.
  intros Hs. destruct (subTransform_write t l s) as [s1|e] eqn:Hw.
  - rewrite (subTransform_after_write _ _ _ _ Hw) in Hs. injection Hs as <-.
    cbn [self]. split.
    + eapply same_construction_trans; [|apply _checkAndReset_construction].
      apply subTransform_write_same_fields in Hw.
      apply same_fields_construction in Hw. done.
    + intros Q Hd HQ.
      assert (Hd1 : table_all Q (self s1)).
      { unfold subTransform_write in Hw. destruct (truthy_string l).
        - case_decide; [done|]. injection Hw as <-.
          by apply subTransform_fixed_spec.
        - injection Hw as <-. by apply subTransform_cascade_spec. }
      apply _checkAndReset_table_all; [done|]. intros m Hm. by apply Hd1 in Hm.
  - unfold subTransform, andThen in Hs. by rewrite Hw in Hs.
Qed.


Lemma exec_construction c s s' :
  exec c s = Ok s' -> same_construction (self s) (self s').
Proof.
  destruct c; simpl.
  - by intros [= <-].
  - by intros [= <-].
  - intros Hs. by apply (class_method_spec AtOrAbove) in Hs as [? _].
  - intros Hs. by apply (class_method_spec RestrictTo) in Hs as [? _].
  - unfold passthrough. rewrite assign_spec. intros [= <-].
    eapply same_construction_trans; [|apply _checkAndReset_construction].
    by repeat split.
  - unfold buildWith. rewrite assign_spec. intros [= <-].
    eapply same_construction_trans; [|apply _checkAndReset_construction].
    by repeat split.
  - intros Hs. by apply subTransform_spec in Hs as [? _].
  - by intros [= <-].
  - destruct (invoke name s) as [r|] eqn:Hi; [|done].
    intros ->. by apply invoke_spec in Hi as [? _].
Qed.

Lemma run_construction calls s : same_construction (self s) (self (run calls s)).
Proof.
  revert s. induction calls as [|c calls IH]; intros s; simpl; [done|].
  destruct (exec c s) as [s1|e] eqn:Hc; [|apply IH].
  eapply same_construction_trans; [by apply exec_construction in Hc | apply IH].
Qed.

(** ** Delegates reached by builder calls *)

Lemma table_all_mono (Q Q' : mapper -> Prop) d :
  (forall m, Q m -> Q' m) -> table_all Q d -> table_all Q' d.
Proof. intros HQ Hd k m Hs. apply HQ. by eapply Hd. Qed.

Lemma table_all_same_table Q d d' :
  delegate d' = delegate d -> table_all Q d -> table_all Q d'.
Proof. intros Heq Hd k m. unfold slot. rewrite Heq. apply Hd. Qed.




(** ** Accessors *)

Lemma fresh_methods n key custom calls :
  let s := run calls (fresh_store n key custom) in
  methods (self s) = buildPermissionMethods (permissionRanking (self s)) /\
  permissionRanking (self s) =
    match custom with Some r => r | None => PermissionRanking end /\
  _defaultPermissionRanking (self s) =
    match custom with Some _ => Undefined | None => Val true end.
Proof.
  intros s. destruct (run_construction calls (fresh_store n key custom))
    as (Hrk & Hm & Hdf & _).
  fold s in Hrk, Hm, Hdf. rewrite Hrk, Hm, Hdf. done.
Qed.

Lemma selector_name_alone sel : selector_name sel = selector_name sel ++ "".
Proof. by destruct sel. Qed.

(** C8 (as amended).  On a delegate constructed with a custom ranking, an
    accessor of the default ranking throws "Cannot use overwritten default
    permission ranking API", provided no token of the custom ranking has
    the capitalized form of the default token: otherwise the instance's own
    generated accessor of that name is the one that runs. *)
Theorem default_accessor_on_custom_ranking (n : nat) (key : nullable string)
    (custom : list string) (calls : list call) (sel : selector) (p : string) :
  p ∈ PermissionRanking ->
  (forall q, q ∈ custom -> capitalize q ≠ capitalize p) ->
  invoke (accessor_name sel p) (run calls (fresh_store n key (Some custom))) =
  Some (Throw OverwrittenDefaultAPI).
Proof.
  intros Hp Hq.
  destruct (fresh_methods n key (Some custom) calls) as (Hm & Hrk & Hdf).
  unfold invoke, accessor_name. rewrite Hm, Hrk. unfold buildPermissionMethods.
  rewrite install_accessors_lookup, bound_token_none by done.
  rewrite lookup_empty. unfold prototype_accessors.
  rewrite install_accessors_lookup.
  destruct (bound_token_elem (capitalize p) PermissionRanking p Hp eq_refl) as [q ->].
  unfold andThen, guard. by rewrite Hdf.
Qed.

(** An own accessor shadows the prototype's: when some token of the custom
    ranking has the capitalized form of [p], the name runs the instance's
    accessor, whatever the default ranking is. *)
Lemma own_accessor_shadows (n : nat) (key : nullable string)
    (custom : option (list string)) (calls : list call) (sel : selector) (p q : string) :
  let s := run calls (fresh_store n key custom) in
  bound_token (capitalize p) (permissionRanking (self s)) = Some q ->
  invoke (accessor_name sel p) s = Some (send sel q s).
Proof.
  intros s Hb. destruct (fresh_methods n key custom calls) as (Hm & _). fold s in Hm.
  unfold invoke, accessor_name. rewrite Hm. unfold buildPermissionMethods.
  by rewrite install_accessors_lookup, Hb.
Qed.


(** ** Assignment without selection *)



End Properties.

(** * Further properties of the builder *)

Section Composition.

Context `{Collaborators}.

#[local] Arguments _checkAndReset : simpl never.
#[local] Arguments subTransform_fixed : simpl never.
#[local] Arguments subTransform_cascade : simpl never.

(** ** Selection calls *)




(** ** Chains on a delegate with nothing pending *)


(** X3.  On a delegate with no cutoff or sole index pending,
    [always().buildWith(fn)] returns with the current level and the
    broadcast flag at [null] and with one custom mapper wrapping [fn], the
    same instance, in the slot of every level of the ranking. *)
Theorem always_buildWith_broadcast (s : Store) (builder : Builder) :
  is_set (restrictAtOrAbove (self s)) = false ->
  is_set (restrict (self s)) = false ->
  exists s',
    andThen always (buildWith builder) s = Ok s' /\
    curPermissionLvl (self s') = Null /\
    alwaysFlag (self s') = Null /\
    forall P, P ∈ permissionRanking (self s) ->
      slot (self s') P = Val (Mapper (next_ref s) (CustomFieldMapper builder)).
Proof.
  intros Hc Hr. unfold andThen, always, buildWith. rewrite assign_spec.
  eexists. split; [done|]. cbn [self next_ref on_self].
  split; [by rewrite _checkAndReset_fields|].
  split; [by rewrite _checkAndReset_fields|].
  intros P HP. rewrite _checkAndReset_plain by done.
  rewrite _always_slot by done. apply slot_write_slot_eq.
Qed.


(** X5.  An assignment call consumes the selection.  On a delegate with no
    cutoff or sole index pending, a [passthrough()] that follows any
    assignment call without a new selection stores its mapper under the key
    "null" and changes no other slot. *)
Theorem passthrough_after_assignment (s s1 : Store) (c : call) :
  is_assignment c -> exec c s = Ok s1 ->
  is_set (restrictAtOrAbove (self s)) = false ->
  is_set (restrict (self s)) = false ->
  exists s2,
    passthrough s1 = Ok s2 /\
    slot (self s2) "null" = Val (Mapper (next_ref s1) PassthroughFieldMapper) /\
    forall k, k ≠ "null" -> slot (self s2) k = slot (self s1) k.
Proof.
  intros Hc Hs1 Hco Hre.
  destruct (assignment_shape _ _ _ Hc Hs1) as (fm & d1 & Hself & _ & Hco1 & Hre1).
  assert (Hcur : curPermissionLvl (self s1) = Null)
    by (by rewrite Hself, _checkAndReset_fields).
  assert (Hfl : alwaysFlag (self s1) = Null)
    by (by rewrite Hself, _checkAndReset_fields).
  assert (Hco' : restrictAtOrAbove (self s1) = restrictAtOrAbove (self s))
    by (by rewrite Hself, _checkAndReset_fields).
  assert (Hre' : restrict (self s1) = restrict (self s))
    by (by rewrite Hself, _checkAndReset_fields).
  unfold passthrough. rewrite assign_spec. eexists. split; [done|].
  cbn [self]. rewrite Hcur. cbn [property_key].
  assert (Hslot : forall k,
    slot (_checkAndReset (Val (Mapper (next_ref s1) PassthroughFieldMapper))
            (write_slot "null" (Val (Mapper (next_ref s1) PassthroughFieldMapper))
               (self s1))) k =
    slot (write_slot "null" (Val (Mapper (next_ref s1) PassthroughFieldMapper))
            (self s1)) k).
  { intros k. rewrite _checkAndReset_plain by (simpl; congruence).
    rewrite _always_unset; [done|]. simpl. by rewrite Hfl. }
  split; [rewrite Hslot; apply slot_write_slot_eq|].
  intros k Hk. rewrite Hslot. by rewrite slot_write_slot_ne.
Qed.

(** ** What a builder call can change *)

Lemma class_method_frame sel p s s' :
  class_method sel p s = Ok s' ->
  next_ref s' = next_ref s /\ isList (self s') = isList (self s).
Proof.
  destruct sel; simpl; unfold atOrAbove, when, restrictTo;
    repeat case_decide; by intros [= <-].
Qed.

Lemma send_frame sel p s s' :
  send sel p s = Ok s' ->
  next_ref s' = next_ref s /\ isList (self s') = isList (self s).
Proof.
  unfold send. destruct (methods (self s) !! selector_name sel); [done|].
  destruct (prototype_accessors !! selector_name sel).
  - unfold andThen. by destruct (guard s).
  - apply class_method_frame.
Qed.

Lemma invoke_frame name s s' :
  invoke name s = Some (Ok s') ->
  next_ref s' = next_ref s /\ isList (self s') = isList (self s).
Proof.
  unfold invoke. destruct (methods (self s) !! name) as [[sel p]|].
  - intros [= Hs]. by apply send_frame in Hs.
  - destruct (prototype_accessors !! name) as [[sel p]|]; [|done].
    intros [= Hs]. unfold andThen in Hs.
    destruct (guard s) as [s1|] eqn:Hg; [|done].
    apply guard_spec in Hg as ->. by apply send_frame in Hs.
Qed.

Lemma same_fields_isList d d' : same_fields d d' -> isList d' = isList d.
Proof. by intros ->. Qed.

Lemma exec_isList c s s' :
  exec c s = Ok s' ->
  isList (self s') = match c with CallAsList => Val true | _ => isList (self s) end.
Proof.
  destruct c; simpl.
  - by intros [= <-].
  - by intros [= <-].
  - intros Hs. by apply (class_method_frame AtOrAbove) in Hs as [_ ?].
  - intros Hs. by apply (class_method_frame RestrictTo) in Hs as [_ ?].
  - unfold passthrough. rewrite assign_spec. intros [= <-].
    by rewrite _checkAndReset_fields.
  - unfold buildWith. rewrite assign_spec. intros [= <-].
    by rewrite _checkAndReset_fields.
  - intros Hs. destruct (subTransform_write transformerKey permissionLvl s)
      as [s1|e] eqn:Hw.
    + rewrite (subTransform_after_write _ _ _ _ Hw) in Hs. injection Hs as <-.
      apply subTransform_write_same_fields, same_fields_isList in Hw.
      by rewrite _checkAndReset_fields.
    + unfold subTransform, andThen in Hs. by rewrite Hw in Hs.
  - by intros [= <-].
  - destruct (invoke name s) as [r|] eqn:Hi; [|done].
    intros ->. by apply invoke_frame in Hi as [_ ?].
Qed.

(** X6.  The list flag is written by [asList] alone: once [asList()] is
    among the calls made on a delegate the flag is [true] for good, every
    later [transform] hands [true] to the mapper, and a sequence of calls
    without [asList()] leaves the flag as it was. *)
Theorem asList_is_permanent (calls : list call) (s : Store) :
  (CallAsList ∈ calls \/ isList (self s) = Val true ->
   isList (self (run calls s)) = Val true /\
   forall L m (instance : SourceInstance),
     slot (self (run calls s)) L = Val m ->
     transform L instance (self (run calls s)) =
     FieldMapper_map (obj m) instance (sourceKey (self s)) (Val true)) /\
  (CallAsList ∉ calls -> isList (self (run calls s)) = isList (self s)).
Proof.
  assert (Hon : forall calls s, CallAsList ∈ calls \/ isList (self s) = Val true ->
                                isList (self (run calls s)) = Val true).
  { clear calls s. induction calls as [|c calls IH]; intros s [Hin|Hs]; simpl.
    - by apply elem_of_nil in Hin.
    - done.
    - destruct (exec c s) as [s1|e] eqn:Hc.
      + apply IH. apply exec_isList in Hc.
        apply elem_of_cons in Hin as [<-|Hin]; [by right | by left].
      + apply IH. apply elem_of_cons in Hin as [<-|Hin]; [done | by left].
    - destruct (exec c s) as [s1|e] eqn:Hc; apply IH; right; [|done].
      apply exec_isList in Hc. rewrite Hc. by destruct c. }
  split.
  - intros Hyp. split; [by apply Hon|].
    intros L m instance Hm. unfold transform. rewrite Hm, (Hon calls s Hyp).
    by destruct (run_construction calls s) as (_ & _ & _ & ->).
  - revert s. induction calls as [|c calls IH]; intros s Hout; simpl; [done|].
    apply not_elem_of_cons in Hout as [Hne Hout].
    destruct (exec c s) as [s1|e] eqn:Hc; rewrite IH by done; [|done].
    apply exec_isList in Hc. rewrite Hc. by destruct c.
Qed.

(** X7.  What the constructor sets, no builder call changes: after any
    sequence of calls a delegate has the ranking, the source key, the
    default-ranking mark and the generated accessors it was constructed
    with. *)
Theorem construction_is_permanent (n : nat) (key : nullable string)
    (custom : option (list string)) (calls : list call) :
  let d := self (run calls (fresh_store n key custom)) in
  permissionRanking d = match custom with Some r => r | None => PermissionRanking end /\
  sourceKey d = key /\
  _defaultPermissionRanking d =
    match custom with Some _ => Undefined | None => Val true end /\
  methods d = buildPermissionMethods (permissionRanking d).
Proof.
  intros d.
  destruct (run_construction calls (fresh_store n key custom)) as (Hrk & Hm & Hdf & Hk).
  fold d in Hrk, Hm, Hdf, Hk. rewrite Hrk, Hm, Hdf, Hk. done.
Qed.

(** ** Allocation *)

Lemma cascade_fold_refs (n : nat) t r s :
  (n <= next_ref s)%nat ->
  table_all (fun m => (n <= ref m < next_ref s)%nat) (self s) ->
  table_all (fun m => (n <= ref m < next_ref (foldl (cascade_step t) s r))%nat)
    (self (foldl (cascade_step t) s r)).
Proof.
  revert s. induction r as [|p r IH]; intros s Hn Hd; simpl; [done|].
  apply IH.
  - simpl. lia.
  - unfold cascade_step, alloc, on_self. cbn [self next_ref].
    apply table_all_write_slot.
    + eapply table_all_mono; [|exact Hd]. simpl. intros m Hm. lia.
    + intros m [= <-]. simpl. lia.
Qed.

Lemma exec_refs (n : nat) c s s' :
  exec c s = Ok s' ->
  (n <= next_ref s)%nat ->
  table_all (fun m => (n <= ref m < next_ref s)%nat) (self s) ->
  (next_ref s <= next_ref s')%nat /\
  table_all (fun m => (n <= ref m < next_ref s')%nat) (self s').
Proof.
  intros Hs Hn Hd.
  assert (Hsel : forall s1, next_ref s1 = next_ref s ->
                            delegate (self s1) = delegate (self s) ->
            (next_ref s <= next_ref s1)%nat /\
            table_all (fun m => (n <= ref m < next_ref s1)%nat) (self s1)).
  { intros s1 Hnx Htb. split; [lia|]. rewrite Hnx.
    by apply (table_all_same_table _ (self s)). }
  assert (Hasg : forall o s1, assign o s = Ok s1 ->
            (next_ref s <= next_ref s1)%nat /\
            table_all (fun m => (n <= ref m < next_ref s1)%nat) (self s1)).
  { intros o s1. rewrite assign_spec. intros [= <-]. cbn [self next_ref].
    split; [lia|]. apply _checkAndReset_table_all.
    - apply table_all_write_slot.
      + eapply table_all_mono; [|exact Hd]. simpl. intros m Hm. lia.
      + intros m [= <-]. simpl. lia.
    - intros m [= <-]. simpl. lia. }
  destruct c; simpl in Hs.
  - injection Hs as <-. by apply Hsel.
  - injection Hs as <-. by apply Hsel.
  - pose proof (class_method_frame AtOrAbove _ _ _ Hs) as [? _].
    pose proof (class_method_spec AtOrAbove _ _ _ Hs) as [_ ?]. by apply Hsel.
  - pose proof (class_method_frame RestrictTo _ _ _ Hs) as [? _].
    pose proof (class_method_spec RestrictTo _ _ _ Hs) as [_ ?]. by apply Hsel.
  - by eapply Hasg.
  - by eapply Hasg.
  - destruct (subTransform_write transformerKey permissionLvl s) as [s1|e] eqn:Hw.
    + rewrite (subTransform_after_write _ _ _ _ Hw) in Hs. injection Hs as <-.
      cbn [self next_ref].
      assert (H1 : (next_ref s <= next_ref s1)%nat /\
                   table_all (fun m => (n <= ref m < next_ref s1)%nat) (self s1)).
      { unfold subTransform_write in Hw. destruct (truthy_string permissionLvl).
        - case_decide; [done|]. injection Hw as <-.
          destruct (subTransform_fixed_spec transformerKey
                      (property_key permissionLvl) s) as (Hnx & _ & _ & _ & Hq).
          split; [lia|]. rewrite Hnx. apply Hq.
          + eapply table_all_mono; [|exact Hd]. simpl. intros m Hm. lia.
          + simpl. lia.
        - injection Hw as <-. unfold subTransform_cascade.
          destruct (cascade_fold_spec transformerKey (permissionRanking (self s)) s)
            as (Hnx & _).
          split; [lia|]. by apply cascade_fold_refs. }
      destruct H1 as [Hle Hd1]. split; [done|].
      apply _checkAndReset_table_all.
      * by apply (table_all_same_table _ (self s1)).
      * intros m Hm. by apply Hd1 in Hm.
    + unfold subTransform, andThen in Hs. by rewrite Hw in Hs.
  - injection Hs as <-. by apply Hsel.
  - destruct (invoke name s) as [r|] eqn:Hi; [|done]. subst r.
    pose proof (invoke_frame _ _ _ Hi) as [? _].
    pose proof (invoke_spec _ _ _ Hi) as [_ ?]. by apply Hsel.
Qed.

Lemma run_refs (n : nat) calls s :
  (n <= next_ref s)%nat ->
  table_all (fun m => (n <= ref m < next_ref s)%nat) (self s) ->
  (n <= next_ref (run calls s))%nat /\
  table_all (fun m => (n <= ref m < next_ref (run calls s))%nat) (self (run calls s)).
Proof.
  revert s. induction calls as [|c calls IH]; intros s Hn Hd; simpl; [done|].
  destruct (exec c s) as [s1|e] eqn:Hc; [|by apply IH].
  destruct (exec_refs n _ _ _ Hc Hn Hd) as [Hle Hd1]. apply IH; [lia | done].
Qed.

(** X8.  Every mapper found in the table of a delegate was allocated by one
    of the calls made on it: its reference lies between the heap size at
    construction and the current one.  So the mapper that the next
    assignment allocates is a new instance, held by no slot before. *)
Theorem mappers_are_allocated_once (n : nat) (key : nullable string)
    (custom : option (list string)) (calls : list call) :
  let s := run calls (fresh_store n key custom) in
  (forall k m, slot (self s) k = Val m -> (n <= ref m < next_ref s)%nat) /\
  (forall k o, slot (self s) k ≠ Val (Mapper (next_ref s) o)).
Proof.
  intros s.
  destruct (run_refs n calls (fresh_store n key custom)) as [_ Hd].
  { done. }
  { intros k m Hs. by unfold slot in Hs. }
  fold s in Hd. split; [exact Hd|].
  intros k o Hs. apply Hd in Hs. simpl in Hs. lia.
Qed.

(** ** Names of the generated accessors *)








(** X11.  A ranking that contains the empty token disables every generated
    accessor of the delegate: the accessors generated for the empty token
    are named [atOrAbove], [when] and [restrictTo], they shadow the
    selection methods that all accessors call, and call themselves without
    end. *)
Theorem empty_token_disables_accessors (n : nat) (key : nullable string)
    (custom : option (list string)) (calls : list call) (sel : selector) (p : string) :
  let s := run calls (fresh_store n key custom) in
  "" ∈ permissionRanking (self s) ->
  p ∈ permissionRanking (self s) ->
  invoke (accessor_name sel p) s = Some (Throw RangeError).
Proof.
  intros s He Hp. destruct (fresh_methods n key custom calls) as (Hm & _). fold s in Hm.
  destruct (bound_token_elem (capitalize p) _ p Hp eq_refl) as [q Hq].
  destruct (bound_token_elem "" _ "" He eq_refl) as [e Hbe].
  unfold invoke, accessor_name. rewrite Hm. unfold buildPermissionMethods.
  rewrite install_accessors_lookup, Hq. f_equal.
  unfold send. rewrite Hm. unfold buildPermissionMethods.
  by rewrite (selector_name_alone sel), install_accessors_lookup, Hbe.
Qed.

(** ** Restricted chains, as [transform] sees them *)




(** ** A token that occurs twice *)





(** ** Sub-transform under a restriction *)




(** ** The default accessors on a default delegate *)

(** X17.  The error "Cannot use overwritten default permission ranking API"
    is reserved to delegates constructed with a custom ranking: on a
    delegate constructed without one, no accessor call throws it, whatever
    calls were made before. *)
Theorem default_delegate_never_unsupported (n : nat) (key : nullable string)
    (calls : list call) (name : string) :
  invoke name (run calls (fresh_store n key None)) ≠ Some (Throw OverwrittenDefaultAPI).
Proof.
  destruct (fresh_methods n key None calls) as (_ & _ & Hdf).
  set (s := run calls (fresh_store n key None)) in *.
  assert (Hg : guard s = Ok s) by (unfold guard; by rewrite Hdf).
  assert (Hcm : forall sel p, class_method sel p s ≠ Throw OverwrittenDefaultAPI).
  { intros [] p; simpl; unfold atOrAbove, when, restrictTo; by repeat case_decide. }
  assert (Hsend : forall sel p, send sel p s ≠ Throw OverwrittenDefaultAPI).
  { intros sel p. unfold send. destruct (methods (self s) !! selector_name sel); [done|].
    destruct (prototype_accessors !! selector_name sel); [|apply Hcm].
    unfold andThen. by rewrite Hg. }
  unfold invoke. destruct (methods (self s) !! name) as [[sel p]|].
  - intros [= Hs]. by apply Hsend in Hs.
  - destruct (prototype_accessors !! name) as [[sel p]|]; [|done].
    unfold andThen. rewrite Hg. intros [= Hs]. by apply Hsend in Hs.
Qed.

(** ** A sole restriction lasts *)






(** ** Selection against a pending sole index, and the empty ranking *)


(** X20.  Over an empty ranking [always()] selects [undefined]
    ([permissionRanking[0]]) and the loops of broadcast and narrowing have
    nothing to visit: [always().passthrough()] stores its mapper under the
    key "undefined" and changes no other slot, whatever restriction is
    pending. *)
Theorem always_passthrough_empty_ranking (s : Store) :
  permissionRanking (self s) = [] ->
  exists s',
    andThen always passthrough s = Ok s' /\
    slot (self s') "undefined" = Val (Mapper (next_ref s) PassthroughFieldMapper) /\
    forall k, k ≠ "undefined" -> slot (self s') k = slot (self s) k.
Proof.
  intros Hrk. unfold andThen, always, passthrough. rewrite assign_spec.
  eexists. split; [done|]. cbn [self next_ref on_self].
  rewrite Hrk. cbn [first_entry curPermissionLvl set_curPermissionLvl property_key].
  set (d1 := write_slot _ _ _).
  assert (Hout : forall k, k ∉ permissionRanking d1).
  { intros k. change (permissionRanking d1) with (permissionRanking (self s)).
    rewrite Hrk. apply not_elem_of_nil. }
  split.
  - rewrite _checkAndReset_other by apply Hout. apply slot_write_slot_eq.
  - intros k Hk. rewrite _checkAndReset_other by apply Hout.
    unfold d1. by rewrite slot_write_slot_ne.
Qed.

End Composition.

(** * Concrete instances *)

#[local] Existing Instance sample_collaborators.

(** The test-suite's [buildPermissionMethods]: the nine accessors of the
    custom ranking. *)
Example custom_ranking_accessor_names :
  dom (methods (self sample_custom)) =
  {[ "atOrAboveLow"; "atOrAboveMedium"; "atOrAboveHigh";
     "whenLow"; "whenMedium"; "whenHigh";
     "restrictToLow"; "restrictToMedium"; "restrictToHigh" ]}.
Proof. compute_done. Qed.

(** The test-suite's [transformAtLvl] and [transformBelowLvl]. *)
Example transform_at_and_below_private :
  exists s' : Store,
    andThen (restrictTo "PRIVATE") passthrough sample_default = Ok s' /\
    transform "PRIVATE" sample_instance (self s') = Resolved (Val 200) /\
    transform "PUBLIC" sample_instance (self s') = Resolved Undefined.
Proof. eexists. split; [reflexivity|]. split; vm_compute; reflexivity. Qed.

Ltac closed_fact := first [ reflexivity | compute_done ].

(** *** C2 *)

(** Counterexample to C2 as stated (every delegate): after
    [restrictTo("low").passthrough()] the sole index stays set, and a later
    [always().passthrough()] leaves "medium", a level of the ranking,
    denied. *)
Lemma always_passthrough_after_restrictTo :
  exists s1 s2 : Store,
    andThen (restrictTo "low") passthrough sample_custom = Ok s1 /\
    andThen always passthrough s1 = Ok s2 /\
    "medium" ∈ permissionRanking (self s1) /\
    slot (self s2) "medium" = Null.
Proof.
  eexists _, _. split; [reflexivity|]. split; [reflexivity|].
  split; closed_fact.
Qed.

Lemma always_passthrough_broadcast_witness :
  is_set (restrictAtOrAbove (self sample_default)) = false /\
  is_set (restrict (self sample_default)) = false /\
  exists s',
    andThen always passthrough sample_default = Ok s' /\
    curPermissionLvl (self s') = Null /\
    forall P, P ∈ permissionRanking (self sample_default) ->
      slot (self s') P = Val (Mapper (next_ref sample_default) PassthroughFieldMapper).
Proof.
  split; [reflexivity|]. split; [reflexivity|].
  apply always_passthrough_broadcast; reflexivity.
Defined.

(** *** C3 *)


(** *** C4 *)



(** *** C5 *)

(** Counterexample to C5 as stated (every level of the ranking as explicit
    level): the empty token is falsy, so [subTransform(ref, "")] over the
    ranking ["", "a"] takes the branch without explicit level; the two
    slots receive two different mappers, and the one of "a" is bound to
    "a". *)
Lemma subTransform_empty_explicit_level :
  exists (s1 : Store) (m0 m1 : mapper),
    "" ∈ permissionRanking (self (fresh_store 0 (Val "woop") (Some [""; "a"]))) /\
    subTransform_write sample_transformer (Val "")
      (fresh_store 0 (Val "woop") (Some [""; "a"])) = Ok s1 /\
    slot (self s1) "" = Val m0 /\
    slot (self s1) "a" = Val m1 /\
    ref m0 ≠ ref m1 /\
    obj m1 = SubTransformFieldMapper sample_transformer "a".
Proof.
  eexists _, _, _. split; [closed_fact|]. split; [reflexivity|].
  split; [reflexivity|]. split; [reflexivity|]. split; [|reflexivity].
  vm_compute. discriminate.
Qed.

Lemma subTransform_modes_witness :
  "medium" ≠ "" /\
  "medium" ∈ permissionRanking (self sample_custom) /\
  exists s1 s',
    subTransform_write sample_transformer (Val "medium") sample_custom = Ok s1 /\
    (forall L, L ∈ permissionRanking (self sample_custom) ->
       slot (self s1) L =
       Val (Mapper 0 (SubTransformFieldMapper sample_transformer "medium"))) /\
    subTransform sample_transformer (Val "medium") sample_custom = Ok s' /\
    alwaysFlag (self s') = Null /\
    (is_set (restrictAtOrAbove (self sample_custom)) = false ->
     is_set (restrict (self sample_custom)) = false ->
     forall L, L ∈ permissionRanking (self sample_custom) ->
       slot (self s') L =
       Val (Mapper 0 (SubTransformFieldMapper sample_transformer "medium"))).
Proof.
  split; [discriminate|]. split; [closed_fact|].
  apply (proj1 (subTransform_modes sample_custom sample_transformer)).
  - discriminate.
  - closed_fact.
Defined.

(** *** C6 *)

Lemma assignment_resets_selection_witness :
  is_assignment CallPassthrough /\
  exists s' s'' : Store,
    exec CallPassthrough sample_sole = Ok s' /\
    curPermissionLvl (self s') = Null /\
    alwaysFlag (self s') = Null /\
    restrictAtOrAbove (self s') = restrictAtOrAbove (self sample_sole) /\
    restrict (self s') = Val 1 /\
    exec (CallBuildWith (fun _ _ _ => Val 7)) s' = Ok s'' /\
    slot (self s'') "low" = Null.
Proof.
  split; [exact I|].
  destruct (assignment_resets_selection sample_sole CallPassthrough I) as [_ Hres].
  eexists _, _. split; [reflexivity|].
  destruct (Hres _ eq_refl) as (Hcur & Hflag & Hco & Hre & Hnext).
  split; [exact Hcur|]. split; [exact Hflag|]. split; [exact Hco|].
  split; [exact Hre|]. split; [reflexivity|].
  refine (proj1 (Hnext (CallBuildWith (fun _ _ _ => Val 7)) _ I eq_refl _ 0%nat "low" eq_refl)
            1 eq_refl _).
  - closed_fact.
  - discriminate.
Defined.

(** *** C7 *)



(** *** C8 *)

(** Counterexample to C8 as stated: [whenPrivate] is an accessor of the
    default ranking, yet on a delegate constructed with the custom ranking
    ["private", "admin"] it does not throw; the instance's own accessor of
    that name runs and selects the custom token "private". *)
Lemma default_accessor_shadowed :
  "PRIVATE" ∈ PermissionRanking /\
  accessor_name When "PRIVATE" = "whenPrivate" /\
  exists s' : Store,
    invoke "whenPrivate" (fresh_store 0 (Val "woop") (Some ["private"; "admin"])) =
      Some (Ok s') /\
    curPermissionLvl (self s') = Val "private".
Proof.
  split; [closed_fact|]. split; [reflexivity|].
  eexists. split; reflexivity.
Qed.

Lemma default_accessor_on_custom_ranking_witness :
  "PRIVATE" ∈ PermissionRanking /\
  (forall q, q ∈ ["low"; "medium"; "high"] -> capitalize q ≠ capitalize "PRIVATE") /\
  invoke "whenPrivate" sample_custom = Some (Throw OverwrittenDefaultAPI).
Proof.
  assert (Hq : forall q, q ∈ ["low"; "medium"; "high"] ->
                         capitalize q ≠ capitalize "PRIVATE").
  { intros q Hq. repeat (apply elem_of_cons in Hq as [->|Hq]); try discriminate.
    by apply elem_of_nil in Hq. }
  split; [closed_fact|]. split; [exact Hq|].
  apply (default_accessor_on_custom_ranking 0 (Val "woop") ["low"; "medium"; "high"] []
           When "PRIVATE"); [closed_fact | exact Hq].
Defined.

(** *** C9 *)



(** *** C10 *)



(** ** Instances of the further properties *)



Lemma always_buildWith_broadcast_witness :
  is_set (restrictAtOrAbove (self sample_default)) = false /\
  is_set (restrict (self sample_default)) = false /\
  exists s',
    andThen always (buildWith sample_builder) sample_default = Ok s' /\
    curPermissionLvl (self s') = Null /\
    alwaysFlag (self s') = Null /\
    forall P, P ∈ permissionRanking (self sample_default) ->
      slot (self s') P =
      Val (Mapper (next_ref sample_default) (CustomFieldMapper sample_builder)).
Proof.
  split; [reflexivity|]. split; [reflexivity|].
  apply (always_buildWith_broadcast sample_default sample_builder); reflexivity.
Defined.


Lemma passthrough_after_assignment_witness :
  is_assignment CallPassthrough /\
  exec CallPassthrough (run [CallWhen "low"] sample_custom) =
    Ok (run [CallWhen "low"; CallPassthrough] sample_custom) /\
  is_set (restrictAtOrAbove (self (run [CallWhen "low"] sample_custom))) = false /\
  is_set (restrict (self (run [CallWhen "low"] sample_custom))) = false /\
  exists s2,
    passthrough (run [CallWhen "low"; CallPassthrough] sample_custom) = Ok s2 /\
    slot (self s2) "null" =
      Val (Mapper (next_ref (run [CallWhen "low"; CallPassthrough] sample_custom))
             PassthroughFieldMapper) /\
    forall k, k ≠ "null" ->
      slot (self s2) k =
      slot (self (run [CallWhen "low"; CallPassthrough] sample_custom)) k.
Proof.
  split; [exact I|]. split; [reflexivity|]. split; [reflexivity|]. split; [reflexivity|].
  apply (passthrough_after_assignment (run [CallWhen "low"] sample_custom) _
           CallPassthrough); first [exact I | reflexivity].
Defined.

Lemma asList_is_permanent_witness :
  (CallAsList ∈ [CallAsList; CallAlways; CallPassthrough] \/
   isList (self sample_custom) = Val true) /\
  isList (self (run [CallAsList; CallAlways; CallPassthrough] sample_custom)) = Val true /\
  forall L m (instance : SourceInstance),
    slot (self (run [CallAsList; CallAlways; CallPassthrough] sample_custom)) L = Val m ->
    transform L instance (self (run [CallAsList; CallAlways; CallPassthrough] sample_custom)) =
    FieldMapper_map (obj m) instance (sourceKey (self sample_custom)) (Val true).
Proof.
  assert (Hin : CallAsList ∈ [CallAsList; CallAlways; CallPassthrough] \/
                isList (self sample_custom) = Val true).
  { left. apply elem_of_cons. by left. }
  split; [exact Hin|].
  exact (proj1 (asList_is_permanent [CallAsList; CallAlways; CallPassthrough]
                  sample_custom) Hin).
Defined.

Lemma empty_token_disables_accessors_witness :
  "" ∈ permissionRanking (self (fresh_store 0 (Val "woop") (Some [""; "a"]))) /\
  "a" ∈ permissionRanking (self (fresh_store 0 (Val "woop") (Some [""; "a"]))) /\
  invoke "whenA" (fresh_store 0 (Val "woop") (Some [""; "a"])) = Some (Throw RangeError).
Proof.
  split; [closed_fact|]. split; [closed_fact|].
  apply (empty_token_disables_accessors 0 (Val "woop") (Some [""; "a"]) [] When "a");
    closed_fact.
Defined.








Lemma always_passthrough_empty_ranking_witness :
  permissionRanking (self (fresh_store 0 (Val "woop") (Some []))) = [] /\
  exists s',
    andThen always passthrough (fresh_store 0 (Val "woop") (Some [])) = Ok s' /\
    slot (self s') "undefined" = Val (Mapper 0 PassthroughFieldMapper) /\
    forall k, k ≠ "undefined" ->
      slot (self s') k = slot (self (fresh_store 0 (Val "woop") (Some []))) k.
Proof.
  split; [reflexivity|].
  apply (always_passthrough_empty_ranking (fresh_store 0 (Val "woop") (Some [])));
    reflexivity.
Defined.
